(** * folly/GLog.h: the rate-limiting gates behind FB_LOG_EVERY_MS and FB_LOG_ONCE

    Both macros expand to a guard around [LOG(severity)].  The guard owns one
    function-local static atomic and decides, on every pass through the call
    site, whether the log statement runs.  This development embeds the guards
    as computations over the atomic cell and proves the behaviour the
    specification states for the two gates ("WindowedGate" for
    FB_LOG_EVERY_MS, "OnceGate" for FB_LOG_ONCE; the boolean the spec calls
    the result of [tryAcquire] is "the LOG statement is reached"). *)

From Stdlib Require Import ZArith Bool List Lia.
From stdpp Require Import base list.
Import ListNotations.
Local Open Scope Z_scope.

(** ** Signed 64-bit arithmetic

    [std::chrono::milliseconds::rep] is a signed 64-bit integer.  The only
    arithmetic the header performs on it is the subtraction
    [FB_LEM_now - FB_LEM_prev]; signed overflow has no defined result in C++,
    so the subtraction is partial. *)
Module Int64.

Definition min_signed : Z := - 2 ^ 63.
Definition max_signed : Z := 2 ^ 63 - 1.

Definition in_range (z : Z) : Prop := min_signed <= z <= max_signed.

Definition in_rangeb (z : Z) : bool := (min_signed <=? z) && (z <=? max_signed).

Definition sub (a b : Z) : option Z :=
  if in_rangeb (a - b) then Some (a - b) else None.

End Int64.

(** ** Computations over one atomic cell

    A computation reads and updates the cell, may have no defined result, and
    records the operations it performed on the cell and on the clock. *)

Inductive memory_order : Type :=
| memory_order_relaxed
| memory_order_acquire
| memory_order_seq_cst.

Inductive event (T : Type) : Type :=
| EvNow (t : Z)
| EvLoad (order : memory_order) (v : T)
| EvCompareExchange (expected desired : T) (success : bool)
| EvExchange (order : memory_order) (desired previous : T).

Arguments EvNow {T} t.
Arguments EvLoad {T} order v.
Arguments EvCompareExchange {T} expected desired success.
Arguments EvExchange {T} order desired previous.

(** The value an operation stores into the cell, if it stores one. *)
Definition stored {T : Type} (e : event T) : option T :=
  match e with
  | EvNow _ | EvLoad _ _ => None
  | EvCompareExchange _ desired success => if success then Some desired else None
  | EvExchange _ desired _ => Some desired
  end.

(** The operations that store into the cell. *)
Definition is_write {T : Type} (e : event T) : bool :=
  match e with
  | EvNow _ | EvLoad _ _ => false
  | EvCompareExchange _ _ success => success
  | EvExchange _ _ _ => true
  end.

(** The operations that attempt a read-modify-write, successful or not. *)
Definition is_rmw {T : Type} (e : event T) : bool :=
  match e with
  | EvNow _ | EvLoad _ _ => false
  | EvCompareExchange _ _ _ | EvExchange _ _ _ => true
  end.

Section Atomic.

Context {T : Type} `{EqDecision T}.

Definition M (A : Type) : Type := T -> option (A * T * list (event T)).

Definition ret {A : Type} (a : A) : M A := fun cell => Some (a, cell, []).

Definition bind {A B : Type} (m : M A) (k : A -> M B) : M B :=
  fun cell =>
    match m cell with
    | None => None
    | Some (a, cell1, tr1) =>
        match k a cell1 with
        | None => None
        | Some (b, cell2, tr2) => Some (b, cell2, tr1 ++ tr2)
        end
    end.

Definition lift {A : Type} (o : option A) : M A :=
  fun cell => match o with Some a => Some (a, cell, []) | None => None end.

(** [std::atomic<T>::load(order)] *)
Definition load (order : memory_order) : M T :=
  fun cell => Some (cell, cell, [EvLoad order cell]).

(** [std::atomic<T>::compare_exchange_strong(expected, desired)], called
    with the default order [memory_order_seq_cst]: stores [desired] when the
    cell holds [expected]; otherwise leaves the cell alone and hands the
    value found back through [expected]. *)
Definition compare_exchange_strong (expected desired : T) : M (bool * T) :=
  fun cell =>
    if decide (cell = expected)
    then Some ((true, expected), desired, [EvCompareExchange expected desired true])
    else Some ((false, cell), cell, [EvCompareExchange expected desired false]).

(** [std::atomic<T>::exchange(desired, order)] *)
Definition exchange (desired : T) (order : memory_order) : M T :=
  fun cell => Some (cell, desired, [EvExchange order desired cell]).

(** [system_clock::now()] converted to milliseconds since the epoch; [clock]
    is the value the clock shows. *)
Definition now (clock : Z) : M Z :=
  fun cell => Some (clock, cell, [EvNow clock]).

End Atomic.

Declare Scope atomic_scope.
Delimit Scope atomic_scope with atomic.
Notation "x <- m ;; k" := (bind m (fun x => k))
  (at level 100, m at next level, right associativity) : atomic_scope.
Local Open Scope atomic_scope.

(** Projections of an outcome. *)
Definition result {A T : Type} (o : option (A * T * list (event T))) : option A :=
  match o with Some (a, _, _) => Some a | None => None end.

Definition final {A T : Type} (o : option (A * T * list (event T))) : option T :=
  match o with Some (_, cell, _) => Some cell | None => None end.

Definition trace {A T : Type} (o : option (A * T * list (event T))) : list (event T) :=
  match o with Some (_, _, tr) => tr | None => [] end.

(** What remains of an outcome once the record of operations is dropped. *)
Definition observable {A T : Type} (o : option (A * T * list (event T)))
  : option (A * T) :=
  match o with Some (a, cell, _) => Some (a, cell) | None => None end.

(** A sequence of passes through one call site, one after the other. *)
Fixpoint sequence {T A : Type} (ms : list (@M T A)) : @M T (list A) :=
  match ms with
  | [] => ret []
  | m :: ms' => a <- m ;; l <- sequence ms' ;; ret (a :: l)
  end.

(** ** FB_LOG_EVERY_MS

    The three nested [for] statements of the expansion only declare
    [FB_LEM_interval], [FB_LEM_now], [FB_LEM_prev] and the static
    [FB_LEM_hist]; [FB_LEM_once] lets the innermost body run exactly once.
    What is left is the initialiser of [FB_LEM_now] and the [if] whose
    [else] branch is the log statement.  The interval is taken in the type
    of the clock values ([decltype(milli_interval)] converted for the
    comparison). *)
Module WindowedGate.

(** [static std::atomic<milliseconds::rep> FB_LEM_hist], zero-initialised. *)
Definition FB_LEM_hist_init : Z := 0.

(** The initialiser of [FB_LEM_now]: the clock is sampled only for a
    positive interval. *)
Definition FB_LEM_now_init (clock FB_LEM_interval : Z) : @M Z Z :=
  if FB_LEM_interval <=? 0 then ret 0 else now clock.

(** The condition of the [if]: when it holds the empty branch is taken and
    nothing is logged. *)
Definition FB_LEM_skip (FB_LEM_interval FB_LEM_now : Z) : @M Z bool :=
  if 0 <? FB_LEM_interval then
    FB_LEM_prev <- load memory_order_acquire ;;
    elapsed <- lift (Int64.sub FB_LEM_now FB_LEM_prev) ;;
    if elapsed <? FB_LEM_interval then ret true
    else
      swapped <- compare_exchange_strong FB_LEM_prev FB_LEM_now ;;
      ret (negb (fst swapped))
  else ret false.

(** One pass through the call site; the result tells whether [LOG(severity)]
    is reached. *)
Definition FB_LOG_EVERY_MS (clock milli_interval : Z) : @M Z bool :=
  let FB_LEM_interval := milli_interval in
  FB_LEM_now <- FB_LEM_now_init clock FB_LEM_interval ;;
  skip <- FB_LEM_skip FB_LEM_interval FB_LEM_now ;;
  ret (negb skip).

(** Successive passes, each with the clock value it sees and its interval. *)
Definition passes (calls : list (Z * Z)) : @M Z (list bool) :=
  sequence (map (fun c => FB_LOG_EVERY_MS (fst c) (snd c)) calls).

(** The scenario of the specification: an interval of ten seconds and
    passes at 0, 5000, 10000, 10001 and 20001 ms. *)
Definition ten_second_scenario : list (Z * Z) :=
  [(0, 10000); (5000, 10000); (10000, 10000); (10001, 10000); (20001, 10000)].

(** The values [FB_LEM_hist] can hold at a call site that is only ever
    passed by one thread at a time. *)
Inductive reachable : Z -> Prop :=
| reachable_init : reachable FB_LEM_hist_init
| reachable_pass (clock interval hist : Z) (logged : bool) (hist' : Z)
    (tr : list (event Z)) :
    reachable hist ->
    FB_LOG_EVERY_MS clock interval hist = Some (logged, hist', tr) ->
    reachable hist'.

(** The reference the specification compares the gate with: a plain test
    and a plain store on the same 64-bit values, no atomic operation. *)
Definition naive_tryAcquire (nowMillis intervalMillis lastFireMillis : Z)
  : option (bool * Z) :=
  match Int64.sub nowMillis lastFireMillis with
  | None => None
  | Some elapsed =>
      if intervalMillis <=? elapsed then Some (true, nowMillis)
      else Some (false, lastFireMillis)
  end.

End WindowedGate.

(** ** FB_LOG_EVERY_MS reached by several threads at once

    Each thread runs the expansion of the macro on its own locals; the
    static [FB_LEM_hist] is shared.  A thread advances by one step at a
    time and a step holds at most one operation on the shared cell, so a
    schedule (the list of thread indices in the order they advance)
    interleaves the threads at the granularity of the atomic operations.
    The C++ memory model makes the operations on one atomic object appear in
    a single total order consistent with each thread's program order, and
    the guard touches no other shared object, so the interleavings are all
    its executions. *)
Module Concurrent.

Import WindowedGate.

Inductive thread : Type :=
| AtEntry (clock milli_interval : Z)
| AtLoad (FB_LEM_interval FB_LEM_now : Z)
| AtCompareExchange (FB_LEM_interval FB_LEM_now FB_LEM_prev : Z)
| Finished (logged : bool).

Definition thread_step (t : thread) : @M Z thread :=
  match t with
  | AtEntry clock milli_interval =>
      FB_LEM_now <- FB_LEM_now_init clock milli_interval ;;
      ret (if 0 <? milli_interval then AtLoad milli_interval FB_LEM_now
           else Finished true)
  | AtLoad FB_LEM_interval FB_LEM_now =>
      FB_LEM_prev <- load memory_order_acquire ;;
      elapsed <- lift (Int64.sub FB_LEM_now FB_LEM_prev) ;;
      ret (if elapsed <? FB_LEM_interval then Finished false
           else AtCompareExchange FB_LEM_interval FB_LEM_now FB_LEM_prev)
  | AtCompareExchange FB_LEM_interval FB_LEM_now FB_LEM_prev =>
      swapped <- compare_exchange_strong FB_LEM_prev FB_LEM_now ;;
      ret (Finished (fst swapped))
  | Finished logged => ret (Finished logged)
  end.

Definition pool : Type := list thread * Z.

(** Thread [i] advances; an index that names no thread changes nothing. *)
Definition pool_step (i : nat) (p : pool) : option pool :=
  match fst p !! i with
  | None => Some p
  | Some t =>
      match thread_step t (snd p) with
      | None => None
      | Some (t', hist', _) => Some (<[i := t']> (fst p), hist')
      end
  end.

Fixpoint run_schedule (sched : list nat) (p : pool) : option pool :=
  match sched with
  | [] => Some p
  | i :: sched' =>
      match pool_step i p with
      | None => None
      | Some p' => run_schedule sched' p'
      end
  end.

(** One thread per clock value, all with the same interval, none started. *)
Definition start (clocks : list Z) (interval : Z) : list thread :=
  map (fun clock => AtEntry clock interval) clocks.

Definition has_logged (t : thread) : bool :=
  match t with Finished true => true | _ => false end.

Definition finished (t : thread) : bool :=
  match t with Finished _ => true | _ => false end.

Fixpoint logged_count (ts : list thread) : nat :=
  match ts with
  | [] => 0%nat
  | t :: ts' => ((if has_logged t then 1 else 0) + logged_count ts')%nat
  end.

(** The steps a thread still has to take, at most. *)
Definition remaining (t : thread) : nat :=
  match t with
  | AtEntry _ _ => 3
  | AtLoad _ _ => 2
  | AtCompareExchange _ _ _ => 1
  | Finished _ => 0
  end.

(** The schedule that lets each of [n] threads advance once, in order, and
    does so three times over. *)
Definition round_robin (n : nat) : list nat :=
  seq 0 n ++ seq 0 n ++ seq 0 n.

(** What holds of a thread at every point of an execution in which all
    threads started with the same interval and [hist] was in the cell at
    the start: the thread works on its own clock value, it is about to
    attempt the exchange only if it loaded [hist] and found the window
    elapsed, and while the cell still holds [hist] only threads that found
    the window not elapsed have finished without logging. *)
Definition thread_ok (interval hist cell clock : Z) (t : thread) : Prop :=
  match t with
  | AtEntry clock' interval' => clock' = clock /\ interval' = interval
  | AtLoad interval' now' => now' = clock /\ interval' = interval
  | AtCompareExchange interval' now' prev =>
      now' = clock /\ interval' = interval /\ prev = hist
      /\ interval <= clock - hist
  | Finished true => True
  | Finished false => cell = hist -> clock - hist < interval
  end.

(** Either nobody has logged and the cell is untouched, or one thread has
    logged and the cell holds its clock value, which lies in the window. *)
Definition pool_ok (interval w hist : Z) (clocks : list Z) (p : pool) : Prop :=
  Forall2 (thread_ok interval hist (snd p)) clocks (fst p)
  /\ ((logged_count (fst p) = 0%nat /\ snd p = hist)
      \/ (logged_count (fst p) = 1%nat /\ snd p <> hist
          /\ w <= snd p < w + interval)).

(** The property "exactly one of the concurrent passes logs", for passes
    whose clock values lie in one window [w, w + interval). *)
Definition exactly_one_per_window : Prop :=
  forall (interval w hist : Z) (clocks : list Z) (sched : list nat)
         (ts : list thread) (hist' : Z),
    0 < interval ->
    Forall (fun clock => w <= clock < w + interval) clocks ->
    run_schedule sched (start clocks interval, hist) = Some (ts, hist') ->
    forallb finished ts = true ->
    logged_count ts = 1%nat.

End Concurrent.

(** ** FB_LOG_ONCE

    As above the [for] statements declare the static flag and run the body
    once; the [else] branch of the [if] is the log statement. *)
Module OnceGate.

(** [static std::atomic_bool __folly_detail_glog_logged{false}] *)
Definition __folly_detail_glog_logged_init : bool := false.

(** The condition of the [if]: when it holds nothing is logged. *)
Definition glog_skip : @M bool bool :=
  logged <- load memory_order_relaxed ;;
  if logged : bool then ret true else exchange true memory_order_relaxed.

Definition FB_LOG_ONCE : @M bool bool :=
  skip <- glog_skip ;;
  ret (negb skip).

Definition passes (n : nat) : @M bool (list bool) :=
  sequence (repeat FB_LOG_ONCE n).

(** An operation never stores [false]. *)
Definition stores_true (e : event bool) : Prop :=
  forall v, stored e = Some v -> v = true.

End OnceGate.

(** ** What a sequence of single-threaded passes logged behind the gate *)
Module Spacing.




End Spacing.

(** ** FB_LOG_EVERY_MS under contention, without a common window *)
Module Contention.

Import Concurrent.



(** Threads started with a common interval: each works on its own clock
    value; while the cell still holds [hist], a thread about to attempt
    the exchange loaded [hist] and a thread that finished without logging
    found the interval not elapsed since [hist]. *)
Definition thread_tracked (interval hist cell clock : Z) (t : thread) : Prop :=
  match t with
  | AtEntry clock' interval' => clock' = clock /\ interval' = interval
  | AtLoad interval' now' => now' = clock /\ interval' = interval
  | AtCompareExchange interval' now' prev =>
      now' = clock /\ interval' = interval /\ interval <= clock - prev
      /\ (cell = hist -> prev = hist)
  | Finished true => True
  | Finished false => cell = hist -> clock - hist < interval
  end.

Definition pool_tracked (interval hist : Z) (clocks : list Z) (p : pool) : Prop :=
  Forall2 (thread_tracked interval hist (snd p)) clocks (fst p)
  /\ Z.of_nat (logged_count (fst p)) * interval <= snd p - hist
  /\ (logged_count (fst p) = 0%nat -> snd p = hist)
  /\ (snd p = hist \/ snd p ∈ clocks).

End Contention.

(** ** FB_LOG_ONCE reached by several threads at once

    As for FB_LOG_EVERY_MS: a thread advances by one operation on the
    shared flag at a time, and a schedule interleaves the threads. *)
Module ConcurrentOnce.

Import OnceGate.

Inductive thread : Type :=
| AtLoad
| AtExchange
| Finished (logged : bool).

Definition thread_step (t : thread) : @M bool thread :=
  match t with
  | AtLoad =>
      logged <- load memory_order_relaxed ;;
      ret (if logged : bool then Finished false else AtExchange)
  | AtExchange =>
      previous <- exchange true memory_order_relaxed ;;
      ret (Finished (negb previous))
  | Finished logged => ret (Finished logged)
  end.

Definition pool : Type := list thread * bool.

Definition pool_step (i : nat) (p : pool) : option pool :=
  match fst p !! i with
  | None => Some p
  | Some t =>
      match thread_step t (snd p) with
      | None => None
      | Some (t', flag', _) => Some (<[i := t']> (fst p), flag')
      end
  end.

Fixpoint run_schedule (sched : list nat) (p : pool) : option pool :=
  match sched with
  | [] => Some p
  | i :: sched' =>
      match pool_step i p with
      | None => None
      | Some p' => run_schedule sched' p'
      end
  end.

(** [n] threads, none started. *)
Definition start (n : nat) : list thread := repeat AtLoad n.

Definition has_logged (t : thread) : bool :=
  match t with Finished true => true | _ => false end.

Definition finished (t : thread) : bool :=
  match t with Finished _ => true | _ => false end.

Fixpoint logged_count (ts : list thread) : nat :=
  match ts with
  | [] => 0%nat
  | t :: ts' => ((if has_logged t then 1 else 0) + logged_count ts')%nat
  end.

(** The steps a thread still has to take, at most. *)
Definition remaining (t : thread) : nat :=
  match t with
  | AtLoad => 2
  | AtExchange => 1
  | Finished _ => 0
  end.

(** While the flag is clear nobody has finished; once it is set exactly
    one thread has logged. *)
Definition pool_ok (p : pool) : Prop :=
  (snd p = false /\ Forall (fun t => finished t = false) (fst p))
  \/ (snd p = true /\ logged_count (fst p) = 1%nat).

(** Over a flag that was set from the start: no thread gets to the
    exchange and nobody logs. *)
Definition pool_set (p : pool) : Prop :=
  snd p = true /\ Forall (fun t => t = AtLoad \/ t = Finished false) (fst p).

End ConcurrentOnce.

(** Unfolds one pass of FB_LOG_EVERY_MS down to the tests on the interval
    and on the elapsed time. *)
Ltac run_pass :=
  unfold WindowedGate.FB_LOG_EVERY_MS, WindowedGate.FB_LEM_now_init,
    WindowedGate.FB_LEM_skip, bind, ret, now, load, lift.

(** * Properties *)

(** ** Arithmetic *)

Lemma in_rangeb_true (z : Z) : Int64.in_rangeb z = true <-> Int64.in_range z.
Proof.
  unfold Int64.in_rangeb, Int64.in_range.
  rewrite andb_true_iff, !Z.leb_le. tauto.
Qed.

Lemma sub_in_range (a b : Z) :
  Int64.in_range (a - b) -> Int64.sub a b = Some (a - b).
Proof.
  intros Hr. unfold Int64.sub.
  apply in_rangeb_true in Hr. now rewrite Hr.
Qed.

Lemma sub_overflow (a b : Z) :
  ~ Int64.in_range (a - b) -> Int64.sub a b = None.
Proof.
  intros Hr. unfold Int64.sub.
  destruct (Int64.in_rangeb (a - b)) eqn:E; [|reflexivity].
  apply in_rangeb_true in E. contradiction.
Qed.

Lemma sub_Some (a b d : Z) :
  Int64.sub a b = Some d <-> d = a - b /\ Int64.in_range (a - b).
Proof.
  unfold Int64.sub. destruct (Int64.in_rangeb (a - b)) eqn:E.
  - apply in_rangeb_true in E. split.
    + intros [= <-]. auto.
    + intros [-> _]. reflexivity.
  - split; [discriminate|]. intros [_ Hr].
    apply in_rangeb_true in Hr. congruence.
Qed.

Lemma in_range_dec (z : Z) : {Int64.in_range z} + {~ Int64.in_range z}.
Proof.
  destruct (Int64.in_rangeb z) eqn:E.
  - left. now apply in_rangeb_true.
  - right. intros Hr. apply in_rangeb_true in Hr. congruence.
Qed.

(** ** The four outcomes of one pass through FB_LOG_EVERY_MS *)
Section EveryMsCases.

Import WindowedGate.

Variables clock interval hist : Z.

Lemma every_ms_disabled :
  interval <= 0 -> FB_LOG_EVERY_MS clock interval hist = Some (true, hist, []).
Proof.
  intros Hi. run_pass.
  destruct (Z.leb_spec interval 0); [|lia].
  destruct (Z.ltb_spec 0 interval); [lia|]. reflexivity.
Qed.

Lemma every_ms_closed :
  0 < interval -> Int64.in_range (clock - hist) -> clock - hist < interval ->
  FB_LOG_EVERY_MS clock interval hist
  = Some (false, hist, [EvNow clock; EvLoad memory_order_acquire hist]).
Proof.
  intros Hi Hr Hlt. run_pass.
  destruct (Z.leb_spec interval 0); [lia|].
  destruct (Z.ltb_spec 0 interval); [|lia].
  rewrite (sub_in_range _ _ Hr).
  destruct (Z.ltb_spec (clock - hist) interval); [|lia]. reflexivity.
Qed.

Lemma every_ms_open :
  0 < interval -> Int64.in_range (clock - hist) -> interval <= clock - hist ->
  FB_LOG_EVERY_MS clock interval hist
  = Some (true, clock,
          [EvNow clock; EvLoad memory_order_acquire hist;
           EvCompareExchange hist clock true]).
Proof.
  intros Hi Hr Hge. run_pass.
  destruct (Z.leb_spec interval 0); [lia|].
  destruct (Z.ltb_spec 0 interval); [|lia].
  rewrite (sub_in_range _ _ Hr).
  destruct (Z.ltb_spec (clock - hist) interval); [lia|].
  unfold compare_exchange_strong.
  destruct (decide (hist = hist)); [|congruence]. reflexivity.
Qed.

Lemma every_ms_overflow :
  0 < interval -> ~ Int64.in_range (clock - hist) ->
  FB_LOG_EVERY_MS clock interval hist = None.
Proof.
  intros Hi Hr. run_pass.
  destruct (Z.leb_spec interval 0); [lia|].
  destruct (Z.ltb_spec 0 interval); [|lia].
  now rewrite (sub_overflow _ _ Hr).
Qed.

(** A pass that logs under a positive interval found the window elapsed and
    left its own clock value in the cell. *)
Lemma every_ms_logged_inv (hist' : Z) (tr : list (event Z)) :
  0 < interval ->
  FB_LOG_EVERY_MS clock interval hist = Some (true, hist', tr) ->
  Int64.in_range (clock - hist) /\ interval <= clock - hist /\ hist' = clock.
Proof.
  intros Hi Hrun.
  destruct (in_range_dec (clock - hist)) as [Hr|Hr].
  - destruct (Z.lt_ge_cases (clock - hist) interval) as [Hlt|Hge].
    + rewrite every_ms_closed in Hrun by assumption. discriminate.
    + rewrite every_ms_open in Hrun by assumption.
      injection Hrun as <- _. auto.
  - rewrite every_ms_overflow in Hrun by assumption. discriminate.
Qed.

End EveryMsCases.

(** ** Sequencing *)
Section Bind.

Context {T A B : Type}.

Lemma bind_Some (m : @M T A) (k : A -> @M T B) (cell cell1 : T) (a : A)
    (tr1 : list (event T)) :
  m cell = Some (a, cell1, tr1) ->
  bind m k cell
  = match k a cell1 with
    | None => None
    | Some (b, cell2, tr2) => Some (b, cell2, tr1 ++ tr2)
    end.
Proof. intros Hm. unfold bind. now rewrite Hm. Qed.

Lemma bind_None (m : @M T A) (k : A -> @M T B) (cell : T) :
  m cell = None -> bind m k cell = None.
Proof. intros Hm. unfold bind. now rewrite Hm. Qed.

End Bind.

Section Sequence.

Context {T A : Type}.

Lemma sequence_cons (m : @M T A) (ms : list (@M T A)) (cell cell1 cell2 : T)
    (a : A) (l : list A) (tr1 tr2 : list (event T)) :
  m cell = Some (a, cell1, tr1) ->
  sequence ms cell1 = Some (l, cell2, tr2) ->
  sequence (m :: ms) cell = Some (a :: l, cell2, tr1 ++ tr2).
Proof.
  intros Hm Hms. cbn [sequence]. unfold bind, ret.
  rewrite Hm, Hms. now rewrite app_nil_r.
Qed.

Lemma sequence_cons_undefined (m : @M T A) (ms : list (@M T A)) (cell cell1 : T)
    (a : A) (tr1 : list (event T)) :
  m cell = Some (a, cell1, tr1) ->
  sequence ms cell1 = None ->
  sequence (m :: ms) cell = None.
Proof.
  intros Hm Hms. cbn [sequence]. unfold bind, ret.
  now rewrite Hm, Hms.
Qed.

End Sequence.

(** ** FB_LOG_EVERY_MS, one thread *)
Section EveryMs.

Import WindowedGate.

(** C1, as the specification states it: with an interval of 10000 ms and
    [FB_LEM_hist] still 0, the passes at 0, 5000, 10000, 10001 and 20001 ms
    would log, skip, log, skip, log.  The code does not: the pass at 0 ms is
    0 ms after the stored 0 and is skipped. *)
Lemma ten_second_scenario_first_pass_skipped :
  result (passes ten_second_scenario FB_LEM_hist_init)
  <> Some [true; false; true; false; true].
Proof. vm_compute. discriminate. Qed.

(** C1, amended: in that scenario the five passes skip, skip, log, skip,
    log, and the cell ends at 20001. *)
Theorem ten_second_scenario_outcome :
  result (passes ten_second_scenario FB_LEM_hist_init)
  = Some [false; false; true; false; true]
  /\ final (passes ten_second_scenario FB_LEM_hist_init) = Some 20001.
Proof. split; vm_compute; reflexivity. Qed.

(** C3: under a positive interval, a pass that finds
    [FB_LEM_now - FB_LEM_prev < FB_LEM_interval] does not log, and the only
    operation it performs on [FB_LEM_hist] is the load, so the cell keeps its
    value.  In particular, once a pass at time [t] has logged, a pass at any
    time of [t, t + interval) does not log and leaves the cell at [t]. *)
Theorem every_ms_window_closed :
  (forall clock interval hist elapsed : Z,
      0 < interval ->
      Int64.sub clock hist = Some elapsed ->
      elapsed < interval ->
      FB_LOG_EVERY_MS clock interval hist
      = Some (false, hist, [EvNow clock; EvLoad memory_order_acquire hist]))
  /\
  (forall (t t' interval hist hist' : Z) (tr : list (event Z)),
      0 < interval ->
      FB_LOG_EVERY_MS t interval hist = Some (true, hist', tr) ->
      t <= t' < t + interval ->
      hist' = t /\
      FB_LOG_EVERY_MS t' interval hist'
      = Some (false, t, [EvNow t'; EvLoad memory_order_acquire t])).
Proof.
  split.
  - intros clock interval hist elapsed Hi Hsub Hlt.
    apply sub_Some in Hsub as [-> Hr].
    now apply every_ms_closed.
  - intros t t' interval hist hist' tr Hi Hrun Ht'.
    destruct (every_ms_logged_inv _ _ _ _ _ Hi Hrun) as (Hr & Hge & ->).
    split; [reflexivity|].
    apply every_ms_closed; [assumption| |lia].
    unfold Int64.in_range, Int64.min_signed, Int64.max_signed in *. lia.
Qed.

Lemma every_ms_window_closed_witness :
  FB_LOG_EVERY_MS 10001 10000 10000
  = Some (false, 10000, [EvNow 10001; EvLoad memory_order_acquire 10000])
  /\ FB_LOG_EVERY_MS 19999 10000 10000
     = Some (false, 10000, [EvNow 19999; EvLoad memory_order_acquire 10000]).
Proof.
  split.
  - apply (proj1 every_ms_window_closed 10001 10000 10000 1);
      [lia | reflexivity | lia].
  - apply (proj2 every_ms_window_closed 10000 19999 10000 0 10000
             [EvNow 10000; EvLoad memory_order_acquire 0;
              EvCompareExchange 0 10000 true]);
      [lia | reflexivity | lia].
Defined.

(** The stored timestamp of a call site passed by one thread at a time is
    never negative: it starts at 0 and a pass only stores a clock value
    that is a positive interval past the value it replaces. *)
Lemma reachable_nonneg (hist : Z) : reachable hist -> 0 <= hist.
Proof.
  induction 1 as [|clock interval hist logged hist' tr _ IH Hrun].
  - unfold FB_LEM_hist_init. lia.
  - destruct (Z.le_gt_cases interval 0) as [Hi|Hi].
    + rewrite every_ms_disabled in Hrun by assumption.
      injection Hrun as _ <- _. assumption.
    + destruct logged.
      * destruct (every_ms_logged_inv _ _ _ _ _ Hi Hrun) as (_ & Hge & ->). lia.
      * destruct (in_range_dec (clock - hist)) as [Hr|Hr].
        -- destruct (Z.lt_ge_cases (clock - hist) interval) as [Hlt|Hge].
           ++ rewrite every_ms_closed in Hrun by assumption.
              injection Hrun as <- _. assumption.
           ++ rewrite every_ms_open in Hrun by assumption. discriminate.
        -- rewrite every_ms_overflow in Hrun by assumption. discriminate.
Qed.

(** C4: at a call site passed by one thread at a time, under a positive
    interval, once a pass at time [t] has logged, the next pass, at any
    time [t'] with [t + interval <= t'], logs again (and stores [t']). *)
Theorem every_ms_rearms (t t' interval hist hist' : Z) (tr : list (event Z)) :
  reachable hist ->
  0 < interval ->
  Int64.in_range t' ->
  FB_LOG_EVERY_MS t interval hist = Some (true, hist', tr) ->
  t + interval <= t' ->
  FB_LOG_EVERY_MS t' interval hist'
  = Some (true, t',
          [EvNow t'; EvLoad memory_order_acquire t;
           EvCompareExchange t t' true]).
Proof.
  intros Hreach Hi Ht' Hrun Hlater.
  apply reachable_nonneg in Hreach.
  destruct (every_ms_logged_inv _ _ _ _ _ Hi Hrun) as (Hr & Hge & ->).
  apply every_ms_open; [assumption| |lia].
  unfold Int64.in_range, Int64.min_signed, Int64.max_signed in *. lia.
Qed.

Lemma every_ms_rearms_witness :
  FB_LOG_EVERY_MS 20001 10000 10000
  = Some (true, 20001,
          [EvNow 20001; EvLoad memory_order_acquire 10000;
           EvCompareExchange 10000 20001 true]).
Proof.
  apply (every_ms_rearms 10000 20001 10000 FB_LEM_hist_init 10000
           [EvNow 10000; EvLoad memory_order_acquire 0;
            EvCompareExchange 0 10000 true]).
  - apply reachable_init.
  - lia.
  - unfold Int64.in_range, Int64.min_signed, Int64.max_signed. lia.
  - reflexivity.
  - lia.
Defined.

(** C5: with an interval that is zero or negative every pass logs, whatever
    the cell holds and whatever the clock shows. *)
Theorem every_ms_nonpositive_interval_logs (clock interval hist : Z) :
  interval <= 0 ->
  result (FB_LOG_EVERY_MS clock interval hist) = Some true.
Proof.
  intros Hi. now rewrite every_ms_disabled.
Qed.

Lemma every_ms_nonpositive_interval_logs_witness :
  result (FB_LOG_EVERY_MS 1234 (-5) 999) = Some true.
Proof.
  apply (every_ms_nonpositive_interval_logs 1234 (-5) 999). lia.
Defined.

(** C8: with one thread and a positive interval, every
    [compare_exchange_strong] the pass attempts succeeds, and the pass
    returns the result and leaves the cell the naive test-and-store
    reference does. *)
Theorem every_ms_refines_naive (clock interval hist : Z) :
  0 < interval ->
  (forall expected desired success,
      EvCompareExchange expected desired success
        ∈ trace (FB_LOG_EVERY_MS clock interval hist) ->
      success = true)
  /\ observable (FB_LOG_EVERY_MS clock interval hist)
     = naive_tryAcquire clock interval hist.
Proof.
  intros Hi. unfold naive_tryAcquire.
  destruct (in_range_dec (clock - hist)) as [Hr|Hr].
  - rewrite (sub_in_range _ _ Hr).
    destruct (Z.leb_spec interval (clock - hist)) as [Hge|Hlt].
    + rewrite every_ms_open by assumption. cbn. split; [|reflexivity].
      intros x d ok Hin.
      repeat (apply elem_of_cons in Hin as [Hin|Hin]; [try discriminate|]).
      * now injection Hin.
      * now apply elem_of_nil in Hin.
    + rewrite every_ms_closed by assumption. cbn. split; [|reflexivity].
      intros x d ok Hin.
      repeat (apply elem_of_cons in Hin as [Hin|Hin]; [discriminate|]).
      now apply elem_of_nil in Hin.
  - rewrite (sub_overflow _ _ Hr), every_ms_overflow by assumption.
    cbn. split; [|reflexivity].
    intros x d ok Hin. now apply elem_of_nil in Hin.
Qed.

Lemma every_ms_refines_naive_witness :
  observable (FB_LOG_EVERY_MS 10000 10000 0) = naive_tryAcquire 10000 10000 0.
Proof.
  apply (every_ms_refines_naive 10000 10000 0). lia.
Defined.

End EveryMs.

(** ** FB_LOG_EVERY_MS with gating switched off *)
Section EveryMsDisabled.

Import WindowedGate.

Lemma passes_disabled (calls : list (Z * Z)) (hist : Z) :
  Forall (fun c => snd c <= 0) calls ->
  passes calls hist = Some (repeat true (length calls), hist, []).
Proof.
  induction 1 as [|c calls Hc _ IH]; [reflexivity|].
  unfold passes. cbn [map length repeat].
  change [] with (@nil (event Z) ++ []).
  eapply sequence_cons; [now apply every_ms_disabled | exact IH].
Qed.

(** C10: a pass with an interval that is zero or negative initialises
    [FB_LEM_now] to 0 without sampling the clock and performs no operation
    at all on [FB_LEM_hist]: its record of operations is empty and the cell
    is unchanged.  Hence any number of such passes leave the call site, for
    a later pass with a positive interval, exactly as if they had not
    happened. *)
Theorem every_ms_disabled_frame (calls : list (Z * Z)) (hist : Z) :
  Forall (fun c => snd c <= 0) calls ->
  (forall c, c ∈ calls ->
     FB_LEM_now_init (fst c) (snd c) hist = Some (0, hist, [])
     /\ FB_LOG_EVERY_MS (fst c) (snd c) hist = Some (true, hist, []))
  /\ passes calls hist = Some (repeat true (length calls), hist, [])
  /\ (forall clock interval : Z,
        0 < interval ->
        passes (calls ++ [(clock, interval)]) hist
        = match FB_LOG_EVERY_MS clock interval hist with
          | None => None
          | Some (logged, hist', tr) =>
              Some (repeat true (length calls) ++ [logged], hist', tr)
          end).
Proof.
  intros Hcalls. split; [|split].
  - intros c Hc.
    assert (Hi : snd c <= 0).
    { rewrite Forall_forall in Hcalls. now apply Hcalls. }
    split; [|now apply every_ms_disabled].
    unfold FB_LEM_now_init.
    destruct (Z.leb_spec (snd c) 0); [reflexivity|lia].
  - now apply passes_disabled.
  - intros clock interval _.
    induction Hcalls as [|c calls Hc _ IH].
    + unfold passes. cbn [app map sequence length repeat fst snd].
      unfold bind, ret.
      destruct (FB_LOG_EVERY_MS clock interval hist) as [[[b h'] tr]|];
        [|reflexivity].
      now rewrite !app_nil_r.
    + unfold passes in *. cbn [app map length repeat].
      destruct (FB_LOG_EVERY_MS clock interval hist) as [[[b h'] tr]|].
      * change tr with ([] ++ tr).
        eapply sequence_cons; [now apply every_ms_disabled | exact IH].
      * eapply sequence_cons_undefined; [now apply every_ms_disabled | exact IH].
Qed.

Lemma every_ms_disabled_frame_witness :
  passes [(111, 0); (222, -7); (10000, 10000)] 0
  = Some ([true; true; true], 10000,
          [EvNow 10000; EvLoad memory_order_acquire 0;
           EvCompareExchange 0 10000 true]).
Proof.
  assert (Hcalls : Forall (fun c : Z * Z => snd c <= 0) [(111, 0); (222, -7)]).
  { repeat constructor; cbn; lia. }
  apply (proj2 (proj2 (every_ms_disabled_frame [(111, 0); (222, -7)] 0 Hcalls))
           10000 10000).
  lia.
Defined.

End EveryMsDisabled.

(** ** FB_LOG_ONCE *)
Section Once.

Import OnceGate.

(** One pass, whatever the flag holds: it logs exactly when the flag was
    clear, and the flag is set afterwards. *)
Lemma once_pass (flag : bool) :
  FB_LOG_ONCE flag
  = Some (negb flag, true,
          if flag then [EvLoad memory_order_relaxed true]
          else [EvLoad memory_order_relaxed false;
                EvExchange memory_order_relaxed true false]).
Proof. destruct flag; reflexivity. Qed.

(** Steady state: passes over a set flag only load. *)
Lemma once_steady_state (n : nat) :
  passes n true
  = Some (repeat false n, true, repeat (EvLoad memory_order_relaxed true) n).
Proof.
  induction n as [|n IH]; [reflexivity|].
  unfold passes in *. cbn [repeat].
  change (EvLoad memory_order_relaxed true :: repeat (EvLoad memory_order_relaxed true) n)
    with ([EvLoad memory_order_relaxed true] ++ repeat (EvLoad memory_order_relaxed true) n).
  eapply sequence_cons; [apply (once_pass true) | exact IH].
Qed.

(** C2: starting from the initial flag [false], in a sequence of passes of
    any length the first one logs and none of the later ones does. *)
Theorem once_only_first_pass_logs (n : nat) :
  result (passes (S n) __folly_detail_glog_logged_init) = Some (true :: repeat false n).
Proof.
  unfold passes. cbn [repeat].
  erewrite sequence_cons;
    [reflexivity | apply (once_pass false) | apply once_steady_state].
Qed.

(** C6: a pass that finds the flag set does not log and performs a single
    relaxed load: no exchange is attempted and nothing is stored.  The same
    holds for any number of passes over a set flag. *)
Theorem once_fast_path :
  FB_LOG_ONCE true = Some (false, true, [EvLoad memory_order_relaxed true])
  /\ (forall n : nat,
        result (passes n true) = Some (repeat false n)
        /\ final (passes n true) = Some true
        /\ Forall (fun e => is_rmw e = false /\ is_write e = false)
                  (trace (passes n true))).
Proof.
  split; [reflexivity|].
  intros n. rewrite once_steady_state. cbn [result final trace].
  repeat split.
  apply Forall_forall. intros e He.
  apply list_elem_of_In, repeat_spec in He. subst e. auto.
Qed.

Lemma once_passes_total (n : nat) (flag : bool) :
  exists bs tr,
    passes n flag = Some (bs, match n with O => flag | S _ => true end, tr)
    /\ Forall stores_true tr.
Proof.
  revert flag. induction n as [|n IH]; intros flag.
  - exists [], []. split; [reflexivity|constructor].
  - destruct (IH true) as (bs & tr & Hrun & Htr).
    assert (Hrun' : sequence (repeat FB_LOG_ONCE n) true = Some (bs, true, tr)).
    { destruct n; exact Hrun. }
    eexists _, _. split.
    + unfold passes. cbn [repeat].
      eapply sequence_cons; [apply once_pass | exact Hrun'].
    + apply Forall_app. split; [|assumption].
      destruct flag; repeat constructor;
        intros v; cbn; intros [= <-]; reflexivity || discriminate.
Qed.

(** C9: no operation of FB_LOG_ONCE stores [false] (the one store is the
    exchange of [true]), so a flag that is set stays set through any
    number of later passes. *)
Theorem once_flag_monotone (n : nat) (flag flag' : bool) (bs : list bool)
    (tr : list (event bool)) :
  passes n flag = Some (bs, flag', tr) ->
  Forall stores_true tr /\ (flag = true -> flag' = true).
Proof.
  intros Hrun.
  destruct (once_passes_total n flag) as (bs0 & tr0 & Hrun0 & Htr0).
  rewrite Hrun0 in Hrun. injection Hrun as _ <- <-.
  split; [assumption|]. now destruct n.
Qed.

Lemma once_flag_monotone_witness :
  Forall stores_true
    [EvLoad memory_order_relaxed false;
     EvExchange memory_order_relaxed true false;
     EvLoad memory_order_relaxed true]
  /\ (false = true -> true = true).
Proof.
  apply (once_flag_monotone 2 false true [true; false]). reflexivity.
Defined.

End Once.

(** ** FB_LOG_EVERY_MS, several threads *)
Section EveryMsConcurrent.

Import WindowedGate Concurrent.

(** A thread left alone takes three steps, and they are the pass of the
    single-threaded embedding, operation for operation. *)
Lemma thread_steps_are_the_pass (clock interval hist : Z) :
  (t1 <- thread_step (AtEntry clock interval) ;;
   t2 <- thread_step t1 ;;
   thread_step t2) hist
  = (logged <- FB_LOG_EVERY_MS clock interval ;; ret (Finished logged)) hist.
Proof.
  destruct (Z.le_gt_cases interval 0) as [Hi|Hi].
  - rewrite (bind_Some _ _ _ _ _ _ (every_ms_disabled clock interval hist Hi)).
    unfold thread_step, FB_LEM_now_init, bind, ret.
    destruct (Z.leb_spec interval 0); [|lia].
    destruct (Z.ltb_spec 0 interval); [lia|]. reflexivity.
  - destruct (in_range_dec (clock - hist)) as [Hr|Hr];
      [destruct (Z.lt_ge_cases (clock - hist) interval) as [Hlt|Hge]|].
    + rewrite (bind_Some _ _ _ _ _ _
                 (every_ms_closed clock interval hist Hi Hr Hlt)).
      unfold thread_step, FB_LEM_now_init, bind, ret, now, load, lift.
      destruct (Z.leb_spec interval 0); [lia|].
      destruct (Z.ltb_spec 0 interval); [|lia].
      rewrite (sub_in_range _ _ Hr).
      destruct (Z.ltb_spec (clock - hist) interval); [|lia]. reflexivity.
    + rewrite (bind_Some _ _ _ _ _ _
                 (every_ms_open clock interval hist Hi Hr Hge)).
      unfold thread_step, FB_LEM_now_init, bind, ret, now, load, lift.
      destruct (Z.leb_spec interval 0); [lia|].
      destruct (Z.ltb_spec 0 interval); [|lia].
      rewrite (sub_in_range _ _ Hr).
      destruct (Z.ltb_spec (clock - hist) interval); [lia|].
      unfold compare_exchange_strong.
      destruct (decide (hist = hist)); [|congruence]. reflexivity.
    + rewrite (bind_None _ _ _ (every_ms_overflow clock interval hist Hi Hr)).
      unfold thread_step, FB_LEM_now_init, bind, ret, now, load, lift.
      destruct (Z.leb_spec interval 0); [lia|].
      destruct (Z.ltb_spec 0 interval); [|lia].
      now rewrite (sub_overflow _ _ Hr).
Qed.

Lemma step_entry (clock interval cell : Z) :
  0 < interval ->
  thread_step (AtEntry clock interval) cell
  = Some (AtLoad interval clock, cell, [EvNow clock]).
Proof.
  intros Hi. unfold thread_step, FB_LEM_now_init, bind, ret, now.
  destruct (Z.leb_spec interval 0); [lia|].
  destruct (Z.ltb_spec 0 interval); [|lia]. reflexivity.
Qed.

Lemma step_load (interval clock cell cell' : Z) (t' : thread)
    (tr : list (event Z)) :
  thread_step (AtLoad interval clock) cell = Some (t', cell', tr) ->
  cell' = cell /\ Int64.in_range (clock - cell)
  /\ ((clock - cell < interval /\ t' = Finished false)
      \/ (interval <= clock - cell
          /\ t' = AtCompareExchange interval clock cell)).
Proof.
  unfold thread_step, bind, ret, load, lift.
  destruct (in_range_dec (clock - cell)) as [Hr|Hr].
  - rewrite (sub_in_range _ _ Hr).
    destruct (Z.ltb_spec (clock - cell) interval);
      intros [= <- <- _]; auto.
  - rewrite (sub_overflow _ _ Hr). discriminate.
Qed.

Lemma step_compare_exchange (interval clock prev cell : Z) :
  thread_step (AtCompareExchange interval clock prev) cell
  = if decide (cell = prev)
    then Some (Finished true, clock, [EvCompareExchange prev clock true])
    else Some (Finished false, cell, [EvCompareExchange prev clock false]).
Proof.
  unfold thread_step, bind, ret, compare_exchange_strong.
  destruct (decide (cell = prev)); reflexivity.
Qed.

Lemma logged_count_insert (ts : list thread) (i : nat) (t t' : thread) :
  ts !! i = Some t ->
  (logged_count (<[i := t']> ts) + (if has_logged t then 1 else 0)
   = logged_count ts + (if has_logged t' then 1 else 0))%nat.
Proof.
  revert i. induction ts as [|t0 ts IH]; intros [|i] Hi; try discriminate.
  - injection Hi as ->. cbn. lia.
  - cbn in Hi. cbn [logged_count]. change (<[S i:=t']> (t0 :: ts)) with (t0 :: <[i:=t']> ts).
    cbn [logged_count]. specialize (IH i Hi). lia.
Qed.

Lemma logged_count_start (clocks : list Z) (interval : Z) :
  logged_count (start clocks interval) = 0%nat.
Proof. induction clocks as [|c clocks IH]; [reflexivity|exact IH]. Qed.

Lemma logged_count_none (ts : list thread) :
  logged_count ts = 0%nat -> forallb finished ts = true ->
  Forall (fun t => t = Finished false) ts.
Proof.
  induction ts as [|t ts IH]; [constructor|].
  cbn [logged_count forallb]. intros Hcount Hfin.
  apply andb_true_iff in Hfin as [Ht Hts].
  destruct t as [| | |[|]]; try discriminate.
  constructor; [reflexivity|]. apply IH; [|assumption].
  cbn in Hcount. lia.
Qed.

Lemma thread_step_remaining (t t' : thread) (cell cell' : Z)
    (tr : list (event Z)) :
  thread_step t cell = Some (t', cell', tr) ->
  (remaining t' <= pred (remaining t))%nat.
Proof.
  destruct t as [c I|I c|I c prev|b].
  - unfold thread_step, FB_LEM_now_init, bind, ret, now.
    destruct (I <=? 0); destruct (0 <? I); intros [= <- _ _]; cbn; lia.
  - intros Hstep. apply step_load in Hstep as (_ & _ & [[_ ->]|[_ ->]]); cbn; lia.
  - rewrite step_compare_exchange.
    destruct (decide (cell = prev)); intros [= <- _ _]; cbn; lia.
  - cbn [thread_step]. unfold ret. intros [= <- _ _]. cbn. lia.
Qed.

Lemma run_schedule_app (s1 s2 : list nat) (p p' : pool) :
  run_schedule (s1 ++ s2) p = Some p' ->
  exists p1, run_schedule s1 p = Some p1 /\ run_schedule s2 p1 = Some p'.
Proof.
  revert p. induction s1 as [|i s1 IH]; intros p; cbn [app run_schedule].
  - eauto.
  - destruct (pool_step i p) as [p1|]; [apply IH|discriminate].
Qed.

(** One round over the threads [a .. a + m - 1]: each of them is one step
    closer to the end and no thread is further from it. *)
Lemma round_remaining (m a : nat) (ts ts' : list thread) (cell cell' : Z) :
  run_schedule (seq a m) (ts, cell) = Some (ts', cell') ->
  length ts' = length ts
  /\ forall j t', ts' !! j = Some t' ->
       exists t, ts !! j = Some t
         /\ (remaining t'
             <= if decide (a <= j < a + m)%nat then pred (remaining t)
                else remaining t)%nat.
Proof.
  revert a ts cell. induction m as [|m IH]; intros a ts cell.
  - cbn. intros [= <- <-]. split; [reflexivity|].
    intros j t' Hj. exists t'. split; [assumption|].
    destruct (decide (a <= j < a + 0)%nat); lia.
  - cbn [seq run_schedule]. unfold pool_step. cbn [fst snd].
    destruct (ts !! a) as [t|] eqn:Ha.
    + destruct (thread_step t cell) as [[[t1 cell1] tr]|] eqn:Hstep;
        [|discriminate].
      intros Hrun. apply IH in Hrun as [Hlen Hrem].
      rewrite length_insert in Hlen. split; [assumption|].
      intros j t' Hj. destruct (Hrem j t' Hj) as (t0 & Hj0 & Hle).
      apply thread_step_remaining in Hstep.
      destruct (decide (a = j)) as [<-|Hne].
      * rewrite list_lookup_insert_eq in Hj0 by (now apply lookup_lt_Some in Ha).
        injection Hj0 as <-. exists t. split; [assumption|].
        destruct (decide (S a <= a < S a + m)%nat); [lia|].
        destruct (decide (a <= a < a + S m)%nat); lia.
      * rewrite list_lookup_insert_ne in Hj0 by assumption.
        exists t0. split; [assumption|].
        destruct (decide (S a <= j < S a + m)%nat);
          destruct (decide (a <= j < a + S m)%nat); lia.
    + intros Hrun. apply IH in Hrun as [Hlen Hrem].
      split; [assumption|].
      intros j t' Hj. destruct (Hrem j t' Hj) as (t0 & Hj0 & Hle).
      assert (Hne : a <> j) by (intros ->; congruence).
      exists t0. split; [assumption|].
      destruct (decide (S a <= j < S a + m)%nat);
        destruct (decide (a <= j < a + S m)%nat); lia.
Qed.

Section Window.

Variables interval w hist : Z.
Variable clocks : list Z.
Hypothesis interval_pos : 0 < interval.
Hypothesis in_window : Forall (fun clock => w <= clock < w + interval) clocks.

Lemma pool_ok_start : pool_ok interval w hist clocks (start clocks interval, hist).
Proof.
  split; [|left; split; [apply logged_count_start|reflexivity]].
  cbn [fst snd]. clear in_window.
  induction clocks as [|c cs IH]; constructor; [|exact IH].
  cbn. auto.
Qed.

Lemma pool_step_ok (i : nat) (p p' : pool) :
  pool_ok interval w hist clocks p ->
  pool_step i p = Some p' ->
  pool_ok interval w hist clocks p'.
Proof.
  destruct p as [ts cell]. intros [Hts Hphase]. cbn [fst snd] in *.
  unfold pool_step. cbn [fst snd].
  destruct (ts !! i) as [t|] eqn:Hi; [|intros [= <-]; split; assumption].
  destruct (Forall2_lookup_r _ _ _ _ _ Hts Hi) as (c & Hc & Hok).
  pose proof (Forall_lookup_1 _ _ _ _ in_window Hc) as Hwin. cbn beta in Hwin.
  pose proof (logged_count_insert ts i t) as Hcount.
  specialize (fun t' => Hcount t' Hi).
  assert (Hupd : forall t', thread_ok interval hist cell c t' ->
            Forall2 (thread_ok interval hist cell) clocks (<[i := t']> ts)).
  { intros t' Ht'. rewrite <- (list_insert_id clocks i c Hc).
    now apply Forall2_insert. }
  destruct t as [c' I'|I' c'|I' c' prev|b].
  - (* the clock is sampled *)
    destruct Hok as [-> ->]. rewrite step_entry by assumption.
    intros [= <-]. specialize (Hcount (AtLoad interval c)).
    split; cbn [fst snd].
    + apply Hupd. cbn. auto.
    + cbn [has_logged] in Hcount. rewrite Nat.add_0_r in Hcount.
      rewrite Nat.add_0_r in Hcount. now rewrite Hcount.
  - (* the load and the test of the window *)
    destruct Hok as [-> ->].
    destruct (thread_step (AtLoad interval c) cell) as [[[t' cell'] tr]|] eqn:Hstep;
      [|discriminate].
    intros [= <-].
    apply step_load in Hstep as (-> & _ & Hcase).
    specialize (Hcount t'). split; cbn [fst snd].
    + apply Hupd. destruct Hcase as [[Hlt ->]|[Hge ->]]; cbn.
      * intros ->. assumption.
      * destruct Hphase as [[_ ->]|(_ & _ & Hcell)]; [auto|lia].
    + destruct Hcase as [[_ ->]|[_ ->]]; cbn [has_logged] in Hcount;
        rewrite !Nat.add_0_r in Hcount; now rewrite Hcount.
  - (* the exchange *)
    destruct Hok as (-> & -> & -> & Hge).
    rewrite step_compare_exchange.
    destruct (decide (cell = hist)) as [->|Hne]; intros [= <-].
    + destruct Hphase as [[Hzero _]|(_ & Hne & _)]; [|congruence].
      specialize (Hcount (Finished true)). cbn [has_logged] in Hcount.
      split; cbn [fst snd].
      * rewrite <- (list_insert_id clocks i c Hc).
        apply Forall2_insert; [|exact I].
        eapply Forall2_impl; [exact Hts|].
        intros c0 t0. destruct t0 as [| | |[|]]; cbn; auto.
      * right. split; [lia|]. split; [lia|assumption].
    + specialize (Hcount (Finished false)). cbn [has_logged] in Hcount.
      split; cbn [fst snd].
      * apply Hupd. cbn. congruence.
      * rewrite !Nat.add_0_r in Hcount. now rewrite Hcount.
  - (* a finished thread stays put *)
    cbn [thread_step]. unfold ret. intros [= <-].
    rewrite (list_insert_id ts i (Finished b) Hi). split; assumption.
Qed.

Lemma run_schedule_ok (sched : list nat) (p p' : pool) :
  pool_ok interval w hist clocks p ->
  run_schedule sched p = Some p' ->
  pool_ok interval w hist clocks p'.
Proof.
  revert p. induction sched as [|i sched IH]; intros p Hp.
  - now intros [= <-].
  - cbn [run_schedule].
    destruct (pool_step i p) as [p1|] eqn:Hstep; [|discriminate].
    apply IH. now apply (pool_step_ok i p).
Qed.

(** With representable differences to the initial value, no schedule runs
    into an overflow: every execution is defined. *)
Hypothesis interval_in_range : Int64.in_range interval.
Hypothesis no_overflow : Forall (fun clock => Int64.in_range (clock - hist)) clocks.

Lemma pool_step_defined (i : nat) (p : pool) :
  pool_ok interval w hist clocks p ->
  exists p', pool_step i p = Some p'.
Proof.
  destruct p as [ts cell]. intros [Hts Hphase]. cbn [fst snd] in *.
  unfold pool_step. cbn [fst snd].
  destruct (ts !! i) as [t|] eqn:Hi; [|eauto].
  destruct (Forall2_lookup_r _ _ _ _ _ Hts Hi) as (c & Hc & Hok).
  pose proof (Forall_lookup_1 _ _ _ _ in_window Hc) as Hwin. cbn beta in Hwin.
  pose proof (Forall_lookup_1 _ _ _ _ no_overflow Hc) as Hr. cbn beta in Hr.
  destruct t as [c' I'|I' c'|I' c' prev|b].
  - destruct Hok as [-> ->]. rewrite step_entry by assumption. eauto.
  - destruct Hok as [-> ->].
    assert (Hr' : Int64.in_range (c - cell)).
    { destruct Hphase as [[_ ->]|(_ & _ & Hcell)]; [assumption|].
      unfold Int64.in_range, Int64.min_signed, Int64.max_signed in *. lia. }
    unfold thread_step, bind, ret, load, lift.
    rewrite (sub_in_range _ _ Hr'). eauto.
  - rewrite step_compare_exchange. destruct (decide (cell = prev)); eauto.
  - cbn [thread_step]. unfold ret. eauto.
Qed.

Lemma run_schedule_defined (sched : list nat) (p : pool) :
  pool_ok interval w hist clocks p ->
  exists p', run_schedule sched p = Some p'.
Proof.
  revert p. induction sched as [|i sched IH]; intros p Hp; [cbn; eauto|].
  cbn [run_schedule].
  destruct (pool_step_defined i p Hp) as [p1 Hstep]. rewrite Hstep.
  apply IH. now apply (pool_step_ok i p).
Qed.

(** Three rounds in which every thread advances once bring all of them to
    the end, so finished executions exist for every such set of passes. *)
Lemma round_robin_finishes :
  exists ts hist',
    run_schedule (round_robin (length clocks)) (start clocks interval, hist)
    = Some (ts, hist')
    /\ forallb finished ts = true.
Proof.
  destruct (run_schedule_defined (round_robin (length clocks)) _ pool_ok_start)
    as [[ts hist'] Hrun].
  exists ts, hist'. split; [assumption|].
  unfold round_robin in Hrun.
  apply run_schedule_app in Hrun as ([ts1 h1] & Hrun1 & Hrun).
  apply run_schedule_app in Hrun as ([ts2 h2] & Hrun2 & Hrun3).
  assert (Hlen : length (start clocks interval) = length clocks)
    by apply length_map.
  destruct (round_remaining _ _ _ _ _ _ Hrun1) as [Hlen1 Hrem1].
  destruct (round_remaining _ _ _ _ _ _ Hrun2) as [Hlen2 Hrem2].
  destruct (round_remaining _ _ _ _ _ _ Hrun3) as [Hlen3 Hrem3].
  apply forallb_forall. intros t' Hin.
  apply list_elem_of_In, list_elem_of_lookup in Hin as [j Hj].
  pose proof (lookup_lt_Some _ _ _ Hj) as Hlt.
  destruct (Hrem3 j t' Hj) as (t2 & Hj2 & Hle3).
  destruct (Hrem2 j t2 Hj2) as (t1 & Hj1 & Hle2).
  destruct (Hrem1 j t1 Hj1) as (t0 & Hj0 & Hle1).
  assert (Hj' : (0 <= j < 0 + length clocks)%nat) by lia.
  assert (remaining t0 <= 3)%nat by (destruct t0; cbn; lia).
  destruct (decide (0 <= j < 0 + length clocks)%nat); [|lia].
  destruct t'; cbn in *; try reflexivity; lia.
Qed.

End Window.

(** C7, as the specification states it: whenever the clock values of the
    concurrent passes lie in one window of the interval's width, exactly
    one of them logs.  Two passes at 5000 and 5001 ms on a fresh call site
    with an interval of 10000 ms lie in the window [5000, 15000) and
    neither logs. *)
Lemma exactly_one_per_window_fails : ~ exactly_one_per_window.
Proof.
  intros Hclaim.
  specialize (Hclaim 10000 5000 FB_LEM_hist_init [5000; 5001]
                [0; 1; 1; 0]%nat [Finished false; Finished false] 0).
  assert (Hone : logged_count [Finished false; Finished false] = 1%nat).
  { apply Hclaim.
    - lia.
    - repeat constructor; lia.
    - reflexivity.
    - reflexivity. }
  discriminate Hone.
Qed.

(** C7, amended: for a positive interval and concurrent passes whose clock
    values lie in one window of the interval's width, under every schedule
    and at every point of the execution at most one pass has logged; and
    when all have finished, exactly one has logged provided the clock value
    of at least one of them is a full interval past the value the cell held
    before they started. *)
Theorem at_most_one_per_window (interval w hist : Z) (clocks : list Z)
    (sched : list nat) (ts : list thread) (hist' : Z) :
  0 < interval ->
  Forall (fun clock => w <= clock < w + interval) clocks ->
  run_schedule sched (start clocks interval, hist) = Some (ts, hist') ->
  (logged_count ts <= 1)%nat
  /\ (forallb finished ts = true ->
      Exists (fun clock => interval <= clock - hist) clocks ->
      logged_count ts = 1%nat).
Proof.
  intros Hi Hwin Hrun.
  pose proof (run_schedule_ok interval w hist clocks Hi Hwin sched _ _
                (pool_ok_start interval w hist clocks) Hrun) as [Hts Hphase].
  cbn [fst snd] in *.
  split; [destruct Hphase as [[-> _]|[-> _]]; lia|].
  intros Hfin Heligible.
  destruct Hphase as [[Hzero ->]|[Hone _]]; [exfalso|assumption].
  pose proof (logged_count_none ts Hzero Hfin) as Hall.
  apply Exists_exists in Heligible as (c & Hc & Hge).
  apply list_elem_of_lookup in Hc as [i Hc].
  destruct (Forall2_lookup_l _ _ _ _ _ Hts Hc) as (t & Ht & Hok).
  rewrite (Forall_lookup_1 _ _ _ _ Hall Ht) in Hok. cbn in Hok.
  specialize (Hok eq_refl). lia.
Qed.

Lemma at_most_one_per_window_witness :
  (logged_count [Finished true; Finished false; Finished false] <= 1)%nat
  /\ logged_count [Finished true; Finished false; Finished false] = 1%nat.
Proof.
  destruct (at_most_one_per_window 10000 10000 0 [10000; 15000; 19999]
              [0; 1; 2; 0; 1; 2; 0; 1; 2]%nat
              [Finished true; Finished false; Finished false] 10000)
    as [Hmost Hone].
  - lia.
  - repeat constructor; lia.
  - reflexivity.
  - split; [exact Hmost|]. apply Hone; [reflexivity|].
    apply Exists_cons_hd. lia.
Defined.

End EveryMsConcurrent.

(** * Further properties of the gates *)

(** ** FB_LOG_EVERY_MS: what a run of single-threaded passes does to the cell *)
Section EveryMsRuns.

Import WindowedGate Spacing.








(** X3: on a call site that has not logged yet ([FB_LEM_hist] still 0), a
    pass logs exactly when the interval is not positive or the clock shows
    at least the interval. *)
Theorem every_ms_first_pass (clock interval : Z) :
  Int64.in_range clock ->
  result (FB_LOG_EVERY_MS clock interval FB_LEM_hist_init)
  = Some ((interval <=? 0) || (interval <=? clock)).
Proof.
  intros Hr. unfold FB_LEM_hist_init.
  assert (Hr0 : Int64.in_range (clock - 0)) by now rewrite Z.sub_0_r.
  destruct (Z.leb_spec interval 0) as [Hi|Hi].
  - now rewrite every_ms_disabled.
  - cbn [orb]. destruct (Z.leb_spec interval clock) as [Hge|Hlt].
    + rewrite every_ms_open by (assumption || lia). reflexivity.
    + rewrite every_ms_closed by (assumption || lia). reflexivity.
Qed.

Lemma every_ms_first_pass_witness :
  result (FB_LOG_EVERY_MS 1700000000000 10000 FB_LEM_hist_init) = Some true.
Proof.
  apply (every_ms_first_pass 1700000000000 10000).
  unfold Int64.in_range, Int64.min_signed, Int64.max_signed. lia.
Defined.

(** X4: with clock values that are not negative (times since the epoch),
    the subtraction never overflows: from a stored timestamp that is not
    negative, every run of single-threaded passes is defined, yields one
    result per pass and again leaves a timestamp that is not negative. *)
Theorem every_ms_no_overflow (calls : list (Z * Z)) (hist : Z) :
  Forall (fun c => 0 <= fst c <= Int64.max_signed) calls ->
  0 <= hist <= Int64.max_signed ->
  exists bs hist' tr,
    passes calls hist = Some (bs, hist', tr)
    /\ length bs = length calls
    /\ 0 <= hist' <= Int64.max_signed.
Proof.
  intros Hcalls. revert hist.
  induction Hcalls as [|[clock interval] calls Hc _ IH]; intros hist Hh.
  - exists [], hist, []. auto.
  - cbn [fst] in Hc.
    assert (Hr : Int64.in_range (clock - hist)).
    { unfold Int64.in_range, Int64.min_signed, Int64.max_signed in *. lia. }
    assert (Hpass : exists b hist1 tr1,
               FB_LOG_EVERY_MS clock interval hist = Some (b, hist1, tr1)
               /\ 0 <= hist1 <= Int64.max_signed).
    { destruct (Z.le_gt_cases interval 0) as [Hi|Hi].
      - rewrite every_ms_disabled by assumption. eauto.
      - destruct (Z.lt_ge_cases (clock - hist) interval) as [Hlt|Hge].
        + rewrite every_ms_closed by assumption. eauto.
        + rewrite every_ms_open by assumption. eauto. }
    destruct Hpass as (b & hist1 & tr1 & Hpass & Hh1).
    destruct (IH hist1 Hh1) as (bs & hist' & tr & Hrest & Hlen & Hh').
    exists (b :: bs), hist', (tr1 ++ tr). split; [|split; [|assumption]].
    + unfold passes in *. cbn [map fst snd].
      eapply sequence_cons; eassumption.
    + cbn. now rewrite Hlen.
Qed.

Lemma every_ms_no_overflow_witness :
  exists bs hist' tr,
    passes ten_second_scenario FB_LEM_hist_init = Some (bs, hist', tr)
    /\ length bs = length ten_second_scenario
    /\ 0 <= hist' <= Int64.max_signed.
Proof.
  apply (every_ms_no_overflow ten_second_scenario FB_LEM_hist_init).
  - repeat constructor; cbn; unfold Int64.max_signed; lia.
  - unfold FB_LEM_hist_init, Int64.max_signed. lia.
Defined.

End EveryMsRuns.

(** ** FB_LOG_EVERY_MS under contention *)
Section EveryMsContention.

Import WindowedGate Concurrent Contention.





Section Tracked.

Variables interval hist : Z.
Variable clocks : list Z.
Hypothesis interval_pos : 0 < interval.

Lemma pool_tracked_start :
  pool_tracked interval hist clocks (start clocks interval, hist).
Proof.
  unfold pool_tracked. cbn [fst snd]. rewrite logged_count_start.
  split; [|split; [lia|auto]].
  induction clocks as [|c cs IH]; constructor; [|exact IH].
  cbn. auto.
Qed.

Lemma pool_tracked_step (i : nat) (p p' : pool) :
  pool_tracked interval hist clocks p ->
  pool_step i p = Some p' ->
  pool_tracked interval hist clocks p'.
Proof.
  destruct p as [ts cell]. intros (Hts & Hbound & Hzero & Hmem).
  cbn [fst snd] in *. unfold pool_step. cbn [fst snd].
  destruct (ts !! i) as [t|] eqn:Hi;
    [|intros [= <-]; repeat split; assumption].
  destruct (Forall2_lookup_r _ _ _ _ _ Hts Hi) as (c & Hc & Hok).
  pose proof (logged_count_insert ts i t) as Hcount.
  specialize (fun t' => Hcount t' Hi).
  assert (Hupd : forall t', thread_tracked interval hist cell c t' ->
            Forall2 (thread_tracked interval hist cell) clocks (<[i := t']> ts)).
  { intros t' Ht'. rewrite <- (list_insert_id clocks i c Hc).
    now apply Forall2_insert. }
  destruct t as [c' I'|I' c'|I' c' prev|b].
  - destruct Hok as [-> ->]. rewrite step_entry by assumption.
    intros [= <-]. specialize (Hcount (AtLoad interval c)).
    cbn [has_logged] in Hcount. rewrite !Nat.add_0_r in Hcount.
    unfold pool_tracked. cbn [fst snd]. rewrite Hcount.
    split; [apply Hupd; cbn; auto|auto].
  - destruct Hok as [-> ->].
    destruct (thread_step (AtLoad interval c) cell) as [[[t' cell'] tr]|] eqn:Hstep;
      [|discriminate].
    intros [= <-].
    apply step_load in Hstep as (-> & _ & Hcase).
    specialize (Hcount t').
    assert (Hnot : has_logged t' = false)
      by (destruct Hcase as [[_ ->]|[_ ->]]; reflexivity).
    rewrite Hnot in Hcount. cbn [has_logged] in Hcount.
    rewrite !Nat.add_0_r in Hcount.
    unfold pool_tracked. cbn [fst snd]. rewrite Hcount.
    split; [|auto]. apply Hupd.
    destruct Hcase as [[Hlt ->]|[Hge ->]]; cbn; [intros <-; assumption|auto].
  - destruct Hok as (-> & -> & Hge & Hguard).
    rewrite step_compare_exchange.
    destruct (decide (cell = prev)) as [->|Hne]; intros [= <-].
    + specialize (Hcount (Finished true)). cbn [has_logged] in Hcount.
      rewrite Nat.add_0_r in Hcount.
      assert (Hnonneg : 0 <= Z.of_nat (logged_count ts) * interval)
        by (apply Z.mul_nonneg_nonneg; lia).
      unfold pool_tracked. cbn [fst snd]. rewrite Hcount.
      split; [|split; [|split]].
      * rewrite <- (list_insert_id clocks i c Hc).
        apply Forall2_insert; [|exact I].
        eapply Forall2_impl; [exact Hts|].
        intros c0 t0. destruct t0 as [| | |[|]]; cbn; auto.
        -- intros (? & ? & ? & _). repeat split; try assumption. lia.
        -- intros _ ?. lia.
      * rewrite Nat2Z.inj_add. lia.
      * lia.
      * right. eapply list_elem_of_lookup_2. exact Hc.
    + specialize (Hcount (Finished false)). cbn [has_logged] in Hcount.
      rewrite !Nat.add_0_r in Hcount.
      unfold pool_tracked. cbn [fst snd]. rewrite Hcount.
      split; [|auto]. apply Hupd. cbn. intros Hcell.
      specialize (Hguard Hcell). congruence.
  - cbn [thread_step]. unfold ret. intros [= <-].
    rewrite (list_insert_id ts i (Finished b) Hi).
    repeat split; assumption.
Qed.

Lemma run_schedule_tracked (sched : list nat) (p p' : pool) :
  pool_tracked interval hist clocks p ->
  run_schedule sched p = Some p' ->
  pool_tracked interval hist clocks p'.
Proof.
  revert p. induction sched as [|i sched IH]; intros p Hp.
  - now intros [= <-].
  - cbn [run_schedule].
    destruct (pool_step i p) as [p1|] eqn:Hstep; [|discriminate].
    apply IH. now apply (pool_tracked_step i p).
Qed.

End Tracked.



(** X7: for threads that reach the call site with a common positive
    interval, wherever their clock values lie: if the clock value of at
    least one of them is a full interval past the stored timestamp they
    started from, then once all have finished at least one has logged. *)
Theorem every_ms_somebody_logs (interval hist : Z) (clocks : list Z)
    (sched : list nat) (ts : list thread) (hist' : Z) :
  0 < interval ->
  run_schedule sched (start clocks interval, hist) = Some (ts, hist') ->
  forallb finished ts = true ->
  Exists (fun clock => interval <= clock - hist) clocks ->
  (1 <= logged_count ts)%nat.
Proof.
  intros Hi Hrun Hfin Heligible.
  pose proof (run_schedule_tracked interval hist clocks Hi sched _ _
                (pool_tracked_start interval hist clocks) Hrun)
    as (Hts & _ & Hzero & _).
  cbn [fst snd] in *.
  destruct (logged_count ts) as [|n] eqn:Hcount; [exfalso|lia].
  specialize (Hzero eq_refl). subst hist'.
  pose proof (logged_count_none ts Hcount Hfin) as Hall.
  apply Exists_exists in Heligible as (c & Hc & Hge).
  apply list_elem_of_lookup in Hc as [i Hc].
  destruct (Forall2_lookup_l _ _ _ _ _ Hts Hc) as (t & Ht & Hok).
  rewrite (Forall_lookup_1 _ _ _ _ Hall Ht) in Hok. cbn in Hok.
  specialize (Hok eq_refl). lia.
Qed.

Lemma every_ms_somebody_logs_witness :
  (1 <= logged_count [Finished false; Finished false; Finished true])%nat.
Proof.
  apply (every_ms_somebody_logs 10000 0 [5000; 16000; 30000]
           [1; 2; 1; 2; 2; 1; 0; 0]%nat
           [Finished false; Finished false; Finished true] 30000).
  - lia.
  - reflexivity.
  - reflexivity.
  - apply Exists_cons_tl, Exists_cons_hd. lia.
Defined.

End EveryMsContention.

(** ** FB_LOG_ONCE under contention *)
Section OnceContention.

Import OnceGate ConcurrentOnce.

(** A thread left alone takes two steps, and they are the pass of the
    single-threaded embedding, operation for operation. *)
Lemma once_thread_steps_are_the_pass (flag : bool) :
  (t1 <- thread_step AtLoad ;; thread_step t1) flag
  = (logged <- FB_LOG_ONCE ;; ret (Finished logged)) flag.
Proof. destruct flag; reflexivity. Qed.

Lemma once_step_load (flag : bool) :
  thread_step AtLoad flag
  = Some (if flag then Finished false else AtExchange, flag,
          [EvLoad memory_order_relaxed flag]).
Proof. destruct flag; reflexivity. Qed.

Lemma once_step_exchange (flag : bool) :
  thread_step AtExchange flag
  = Some (Finished (negb flag), true,
          [EvExchange memory_order_relaxed true flag]).
Proof. destruct flag; reflexivity. Qed.

Lemma once_logged_count_insert (ts : list thread) (i : nat) (t t' : thread) :
  ts !! i = Some t ->
  (logged_count (<[i := t']> ts) + (if has_logged t then 1 else 0)
   = logged_count ts + (if has_logged t' then 1 else 0))%nat.
Proof.
  revert i. induction ts as [|t0 ts IH]; intros [|i] Hi; try discriminate.
  - injection Hi as ->. cbn. lia.
  - cbn in Hi. change (<[S i:=t']> (t0 :: ts)) with (t0 :: <[i:=t']> ts).
    cbn [logged_count]. specialize (IH i Hi). lia.
Qed.

Lemma once_nobody_logged (ts : list thread) :
  Forall (fun t => has_logged t = false) ts -> logged_count ts = 0%nat.
Proof.
  induction 1 as [|t ts Ht _ IH]; [reflexivity|].
  cbn [logged_count]. now rewrite Ht, IH.
Qed.

Lemma once_pool_step_length (i : nat) (p p' : pool) :
  pool_step i p = Some p' -> length (fst p') = length (fst p).
Proof.
  unfold pool_step. destruct (fst p !! i) as [t|]; [|now intros [= <-]].
  destruct (thread_step t (snd p)) as [[[t' flag'] tr]|]; [|discriminate].
  intros [= <-]. cbn [fst]. apply length_insert.
Qed.

Lemma once_pool_step_total (i : nat) (p : pool) :
  exists p', pool_step i p = Some p'.
Proof.
  unfold pool_step. destruct (fst p !! i) as [t|]; [|eauto].
  destruct t as [| |b].
  - rewrite once_step_load. eauto.
  - rewrite once_step_exchange. eauto.
  - cbn. eauto.
Qed.

Lemma once_pool_step_ok (i : nat) (p p' : pool) :
  pool_ok p -> pool_step i p = Some p' -> pool_ok p'.
Proof.
  destruct p as [ts flag]. unfold pool_ok, pool_step. cbn [fst snd].
  intros Hp. destruct (ts !! i) as [t|] eqn:Hi; [|now intros [= <-]].
  pose proof (once_logged_count_insert ts i t) as Hcount.
  specialize (fun t' => Hcount t' Hi).
  destruct Hp as [[-> Hts]|[-> Hone]].
  - pose proof (Forall_lookup_1 _ _ _ _ Hts Hi) as Ht. cbn beta in Ht.
    destruct t as [| |b]; [| |discriminate].
    + rewrite once_step_load. intros [= <-]. cbn [fst snd].
      left. split; [reflexivity|]. now apply Forall_insert.
    + rewrite once_step_exchange. intros [= <-]. cbn [fst snd negb].
      right. split; [reflexivity|].
      specialize (Hcount (Finished true)). cbn [has_logged] in Hcount.
      rewrite (once_nobody_logged ts) in Hcount; [lia|].
      eapply Forall_impl; [exact Hts|].
      intros t0. now destruct t0 as [| |[|]].
  - destruct t as [| |b].
    + rewrite once_step_load. intros [= <-]. cbn [fst snd].
      right. split; [reflexivity|].
      specialize (Hcount (Finished false)). cbn [has_logged] in Hcount. lia.
    + rewrite once_step_exchange. intros [= <-]. cbn [fst snd negb].
      right. split; [reflexivity|].
      specialize (Hcount (Finished false)). cbn [has_logged] in Hcount. lia.
    + cbn [thread_step]. unfold ret. intros [= <-]. cbn [fst snd].
      rewrite (list_insert_id ts i (Finished b) Hi). auto.
Qed.

Lemma once_pool_step_set (i : nat) (p p' : pool) :
  pool_set p -> pool_step i p = Some p' -> pool_set p'.
Proof.
  destruct p as [ts flag]. unfold pool_set, pool_step. cbn [fst snd].
  intros [-> Hts]. destruct (ts !! i) as [t|] eqn:Hi; [|now intros [= <-]].
  destruct (Forall_lookup_1 _ _ _ _ Hts Hi) as [->| ->].
  - rewrite once_step_load. intros [= <-]. cbn [fst snd].
    split; [reflexivity|]. apply Forall_insert; auto.
  - cbn [thread_step]. unfold ret. intros [= <-]. cbn [fst snd].
    split; [reflexivity|]. apply Forall_insert; auto.
Qed.

(** Every schedule runs to an outcome, the number of threads is kept, and
    an invariant of the steps holds at the end. *)
Lemma once_run_schedule_inv (P : pool -> Prop) (sched : list nat) (p : pool) :
  (forall i q q', P q -> pool_step i q = Some q' -> P q') ->
  P p ->
  exists p', run_schedule sched p = Some p'
             /\ length (fst p') = length (fst p) /\ P p'.
Proof.
  intros Hstep. revert p. induction sched as [|i sched IH]; intros p Hp.
  - exists p. auto.
  - cbn [run_schedule]. destruct (once_pool_step_total i p) as [p1 Hp1].
    rewrite Hp1.
    destruct (IH p1 (Hstep i p p1 Hp Hp1)) as (p' & Hrun & Hlen & Hp').
    exists p'. rewrite Hlen, (once_pool_step_length i p p1 Hp1). auto.
Qed.

(** X8: when any number of threads reach a fresh FB_LOG_ONCE call site at
    once, under every schedule the execution is defined and at most one
    thread has logged; once all have finished (and there was at least one),
    exactly one has logged and the flag is set. *)
Theorem once_exactly_one_under_contention (n : nat) (sched : list nat) :
  exists ts flag,
    run_schedule sched (start n, __folly_detail_glog_logged_init)
    = Some (ts, flag)
    /\ (logged_count ts <= 1)%nat
    /\ (forallb finished ts = true -> (0 < n)%nat ->
        logged_count ts = 1%nat /\ flag = true).
Proof.
  destruct (once_run_schedule_inv pool_ok sched
              (start n, __folly_detail_glog_logged_init) once_pool_step_ok)
    as ([ts flag] & Hrun & Hlen & Hok).
  { left. split; [reflexivity|]. cbn [fst]. unfold start.
    apply Forall_forall. intros t Ht.
    apply list_elem_of_In, repeat_spec in Ht. now subst t. }
  exists ts, flag. split; [assumption|].
  unfold pool_ok in Hok. cbn [fst snd] in *. unfold start in Hlen. rewrite repeat_length in Hlen.
  destruct Hok as [[-> Hts]|[-> Hone]].
  - split.
    + rewrite once_nobody_logged; [lia|].
      eapply Forall_impl; [exact Hts|].
      intros t0. now destruct t0 as [| |[|]].
    + intros Hfin Hn. exfalso.
      destruct ts as [|t ts]; [cbn in Hlen; lia|].
      apply Forall_cons in Hts as [Ht _].
      cbn [forallb] in Hfin. apply andb_true_iff in Hfin as [Hfin _].
      congruence.
  - split; [lia|auto].
Qed.

Lemma once_exactly_one_under_contention_witness :
  run_schedule [0; 1; 2; 1; 0; 2]%nat (start 3, false)
  = Some ([Finished false; Finished true; Finished false], true)
  /\ logged_count [Finished false; Finished true; Finished false] = 1%nat.
Proof.
  destruct (once_exactly_one_under_contention 3 [0; 1; 2; 1; 0; 2]%nat)
    as (ts & flag & Hrun & _ & Hone).
  vm_compute in Hrun. injection Hrun as <- <-.
  split; [reflexivity|]. apply Hone; [reflexivity|lia].
Defined.

(** X9: when any number of threads reach an FB_LOG_ONCE call site whose
    flag is already set, under every schedule nobody logs and the flag
    stays set. *)
Theorem once_nobody_logs_after_the_first (n : nat) (sched : list nat) :
  exists ts,
    run_schedule sched (start n, true) = Some (ts, true)
    /\ logged_count ts = 0%nat.
Proof.
  destruct (once_run_schedule_inv pool_set sched (start n, true)
              once_pool_step_set)
    as ([ts flag] & Hrun & _ & Hflag & Hts).
  { unfold pool_set. split; [reflexivity|]. cbn [fst]. unfold start.
    apply Forall_forall. intros t Ht.
    apply list_elem_of_In, repeat_spec in Ht. auto. }
  cbn [fst snd] in *. subst flag. exists ts. split; [assumption|].
  apply once_nobody_logged. eapply Forall_impl; [exact Hts|].
  intros t [-> | ->]; reflexivity.
Qed.

End OnceContention.

(** ** Neither gate makes a thread wait *)
Section WaitFree.

Lemma every_ms_pool_step_remaining (i j : nat) (p p' : Concurrent.pool)
    (t : Concurrent.thread) :
  Concurrent.pool_step i p = Some p' ->
  fst p !! j = Some t ->
  exists t', fst p' !! j = Some t'
    /\ (Concurrent.remaining t'
        <= if decide (i = j) then pred (Concurrent.remaining t)
           else Concurrent.remaining t)%nat.
Proof.
  destruct p as [ts cell]. unfold Concurrent.pool_step. cbn [fst snd].
  intros Hstep Hj.
  destruct (ts !! i) as [ti|] eqn:Hi.
  - destruct (Concurrent.thread_step ti cell) as [[[ti' cell'] tr]|] eqn:Hti;
      [|discriminate].
    injection Hstep as <-. cbn [fst].
    destruct (decide (i = j)) as [->|Hne].
    + rewrite list_lookup_insert_eq by (now apply lookup_lt_Some in Hj).
      exists ti'. split; [reflexivity|].
      apply thread_step_remaining in Hti. congruence.
    + rewrite list_lookup_insert_ne by assumption.
      exists t. split; [assumption|lia].
  - injection Hstep as <-. cbn [fst]. exists t. split; [assumption|].
    destruct (decide (i = j)); [congruence|lia].
Qed.

(** X10: FB_LOG_EVERY_MS has no retry loop.  From any state of the threads
    and of the cell and under every schedule, a thread has at most as many
    steps left as it had, less the steps the schedule gave it; a thread
    that was given three steps has finished, whatever the others did. *)
Theorem every_ms_wait_free (sched : list nat) (ts ts' : list Concurrent.thread)
    (hist hist' : Z) (j : nat) (t : Concurrent.thread) :
  Concurrent.run_schedule sched (ts, hist) = Some (ts', hist') ->
  ts !! j = Some t ->
  exists t', ts' !! j = Some t'
    /\ (Concurrent.remaining t' <= Concurrent.remaining t - count_occ Nat.eq_dec sched j)%nat
    /\ ((3 <= count_occ Nat.eq_dec sched j)%nat -> Concurrent.finished t' = true).
Proof.
  intros Hrun Hj.
  assert (Hgen : exists t', ts' !! j = Some t'
            /\ (Concurrent.remaining t'
                <= Concurrent.remaining t - count_occ Nat.eq_dec sched j)%nat).
  { revert ts hist t Hrun Hj. induction sched as [|i sched IH];
      intros ts hist t Hrun Hj.
    - injection Hrun as <- <-. exists t. split; [assumption|cbn; lia].
    - cbn [Concurrent.run_schedule] in Hrun.
      destruct (Concurrent.pool_step i (ts, hist)) as [[ts1 hist1]|] eqn:Hstep;
        [|discriminate].
      destruct (every_ms_pool_step_remaining i j _ _ t Hstep Hj)
        as (t1 & Hj1 & Hle1).
      destruct (IH ts1 hist1 t1 Hrun Hj1) as (t' & Hj' & Hle').
      exists t'. split; [assumption|].
      cbn [count_occ]. cbn [fst] in *.
      destruct (Nat.eq_dec i j) as [Heq|Hne];
        destruct (decide (i = j)); try congruence; lia. }
  destruct Hgen as (t' & Hj' & Hle).
  exists t'. split; [assumption|]. split; [assumption|].
  intros Hturns. assert (Concurrent.remaining t <= 3)%nat
    by (destruct t; cbn; lia).
  destruct t'; cbn in *; try reflexivity; lia.
Qed.

Lemma every_ms_wait_free_witness :
  exists t', [Concurrent.Finished true; Concurrent.AtCompareExchange 10000 15000 0]
             !! 0%nat = Some t'
    /\ (Concurrent.remaining t'
        <= Concurrent.remaining (Concurrent.AtEntry 10000 10000)
           - count_occ Nat.eq_dec [0; 1; 0; 1; 0]%nat 0%nat)%nat
    /\ ((3 <= count_occ Nat.eq_dec [0; 1; 0; 1; 0]%nat 0%nat)%nat ->
        Concurrent.finished t' = true).
Proof.
  apply (every_ms_wait_free [0; 1; 0; 1; 0]%nat
           (Concurrent.start [10000; 15000] 10000)
           [Concurrent.Finished true; Concurrent.AtCompareExchange 10000 15000 0]
           0 10000 0%nat (Concurrent.AtEntry 10000 10000)).
  - reflexivity.
  - reflexivity.
Defined.

Lemma once_thread_step_remaining (t : ConcurrentOnce.thread) (flag : bool) :
  exists t' flag' tr,
    ConcurrentOnce.thread_step t flag = Some (t', flag', tr)
    /\ (ConcurrentOnce.remaining t' <= pred (ConcurrentOnce.remaining t))%nat.
Proof.
  destruct t as [| |b], flag; eexists _, _, _;
    (split; [reflexivity|cbn; lia]).
Qed.

Lemma once_pool_step_remaining (i j : nat) (p : ConcurrentOnce.pool)
    (t : ConcurrentOnce.thread) :
  fst p !! j = Some t ->
  exists p' t', ConcurrentOnce.pool_step i p = Some p'
    /\ fst p' !! j = Some t'
    /\ (ConcurrentOnce.remaining t'
        <= if decide (i = j) then pred (ConcurrentOnce.remaining t)
           else ConcurrentOnce.remaining t)%nat.
Proof.
  destruct p as [ts flag]. unfold ConcurrentOnce.pool_step. cbn [fst snd].
  intros Hj. destruct (ts !! i) as [ti|] eqn:Hi.
  - destruct (once_thread_step_remaining ti flag)
      as (ti' & flag' & tr & -> & Hle).
    exists (<[i := ti']> ts, flag'). cbn [fst].
    destruct (decide (i = j)) as [->|Hne].
    + exists ti'. split; [reflexivity|].
      rewrite list_lookup_insert_eq by (now apply lookup_lt_Some in Hj).
      split; [reflexivity|]. congruence.
    + exists t. split; [reflexivity|].
      rewrite list_lookup_insert_ne by assumption.
      split; [assumption|lia].
  - exists (ts, flag), t. split; [reflexivity|]. split; [assumption|].
    destruct (decide (i = j)); [congruence|lia].
Qed.

(** X11: FB_LOG_ONCE has no retry loop either.  From any state of the
    threads and of the flag, every schedule runs to an outcome in which a
    thread has at most as many steps left as it had, less the steps the
    schedule gave it; a thread that was given two steps has finished,
    whatever the others did. *)
Theorem once_wait_free (sched : list nat) (ts : list ConcurrentOnce.thread)
    (flag : bool) (j : nat) (t : ConcurrentOnce.thread) :
  ts !! j = Some t ->
  exists ts' flag' t',
    ConcurrentOnce.run_schedule sched (ts, flag) = Some (ts', flag')
    /\ ts' !! j = Some t'
    /\ (ConcurrentOnce.remaining t'
        <= ConcurrentOnce.remaining t - count_occ Nat.eq_dec sched j)%nat
    /\ ((2 <= count_occ Nat.eq_dec sched j)%nat -> ConcurrentOnce.finished t' = true).
Proof.
  intros Hj.
  assert (Hgen : exists ts' flag' t',
            ConcurrentOnce.run_schedule sched (ts, flag) = Some (ts', flag')
            /\ ts' !! j = Some t'
            /\ (ConcurrentOnce.remaining t'
                <= ConcurrentOnce.remaining t - count_occ Nat.eq_dec sched j)%nat).
  { revert ts flag t Hj. induction sched as [|i sched IH]; intros ts flag t Hj.
    - exists ts, flag, t. split; [reflexivity|]. split; [assumption|cbn; lia].
    - cbn [ConcurrentOnce.run_schedule].
      destruct (once_pool_step_remaining i j (ts, flag) t Hj)
        as ([ts1 flag1] & t1 & -> & Hj1 & Hle1).
      cbn [fst] in *.
      destruct (IH ts1 flag1 t1 Hj1) as (ts' & flag' & t' & Hrun & Hj' & Hle').
      exists ts', flag', t'. split; [assumption|]. split; [assumption|].
      cbn [count_occ].
      destruct (Nat.eq_dec i j) as [Heq|Hne];
        destruct (decide (i = j)); try congruence; lia. }
  destruct Hgen as (ts' & flag' & t' & Hrun & Hj' & Hle).
  exists ts', flag', t'. repeat (split; [assumption|]).
  intros Hturns. assert (ConcurrentOnce.remaining t <= 2)%nat
    by (destruct t; cbn; lia).
  destruct t'; cbn in *; try reflexivity; lia.
Qed.

Lemma once_wait_free_witness :
  exists ts' flag' t',
    ConcurrentOnce.run_schedule [1; 0; 1; 0]%nat (ConcurrentOnce.start 2, false)
    = Some (ts', flag')
    /\ ts' !! 1%nat = Some t'
    /\ (ConcurrentOnce.remaining t'
        <= ConcurrentOnce.remaining ConcurrentOnce.AtLoad
           - count_occ Nat.eq_dec [1; 0; 1; 0]%nat 1%nat)%nat
    /\ ((2 <= count_occ Nat.eq_dec [1; 0; 1; 0]%nat 1%nat)%nat ->
        ConcurrentOnce.finished t' = true).
Proof.
  apply (once_wait_free [1; 0; 1; 0]%nat (ConcurrentOnce.start 2) false 1%nat
           ConcurrentOnce.AtLoad).
  reflexivity.
Defined.

End WaitFree.
